(** * Contact analysis notebooks of the MDAnalysis user guide

    The repository holds two tutorial notebooks.  Their only executable
    logic is two small Python functions:

    - [contacts_within_cutoff]   (notebook "number of contacts within a
      cutoff", code cell 4), and
    - [fraction_contacts_between] (notebook "write your own contacts
      analysis method", code cell 4).

    Both are straight-line glue around calls into MDAnalysis and numpy.
    The embedding below keeps that shape: the two functions are written
    once, in an error monad, over an interface [Library] that lists the
    library calls they make.  Facts about the numbers that come out are
    proved for [reference_library], the documented behaviour of the
    calls; facts that hold whatever the library does are proved for every
    instance of the interface.

    [contacts_within_cutoff] is embedded at two levels.  The first takes
    the iteration over the trajectory for granted and passes the current
    frame by hand; it carries the facts about the table.  The second,
    [contacts_within_cutoff_run], makes the iteration a call of the
    reader, which may raise, and keeps the frame the trajectory is at as
    shared state; it carries the facts about exceptions and about the
    order of the work, and agrees with the first on a reader that reads
    without fault ([run_without_fault]).

    Numbers are IEEE binary64 values ([PrimFloat.float]), as numpy has
    them; integer counts and frame numbers are [Z]. *)

From Stdlib Require Import PrimFloat ZArith QArith List Bool Arith Lia.
From Stdlib Require FloatAxioms FloatOps SpecFloat.
Import ListNotations.

Local Close Scope Q_scope.
Local Open Scope list_scope.

(** ** Results of calls that may raise *)

Inductive result (E A : Type) : Type :=
| Ok (a : A)
| Raise (e : E).

Arguments Ok {E A} a.
Arguments Raise {E A} e.

Definition bind {E A B : Type} (c : result E A) (k : A -> result E B)
  : result E B :=
  match c with
  | Ok a => k a
  | Raise e => Raise e
  end.

Notation "x <- c ;; k" := (bind c (fun x => k))
  (at level 61, c at next level, right associativity).

(** A Python [for] loop whose body updates one local variable [s] and may
    raise: the frames are visited from first to last, and the first
    exception ends the loop. *)
Fixpoint for_each {E A S : Type} (xs : list A)
    (body : S -> A -> result E S) (s : S) : result E S :=
  match xs with
  | [] => Ok s
  | x :: rest => s' <- body s x ;; for_each rest body s'
  end.

(** ** Data *)

(** One row of a positions array: x, y, z. *)
Definition coordinate : Type := (float * float * float)%type.

(** A trajectory frame: its number ([ts.frame]) and the coordinates of
    every atom of the universe, by atom index ([ts.positions]). *)
Record Timestep : Type := {
  frame : Z;
  ts_positions : nat -> coordinate
}.

(** A universe, as far as the notebooks look at it: the frames that
    iterating [u.trajectory] yields, in order.  (The universes the library
    builds have at least one frame: see [LoadedUniverse]; what the reader
    does when the iteration itself fails: see [Reader].)  The reader may
    hand out one [Timestep] object and refill it at every step; the loop reads
    [ts.frame] during the pass and stores the number, so the rows it
    collects do not alias the frame. *)
Record Universe : Type := {
  trajectory : list Timestep
}.

(** An atom group of the universe: the indices of its atoms ([ag.ix]).
    Its [positions] are read from the frame the trajectory is at. *)
Record AtomGroup : Type := {
  ix : list nat
}.

(** A numeric numpy array of at most two dimensions with integer entries:
    its [shape] and its rows. *)
Record ndarray : Type := {
  shape : list nat;
  data : list (list Z)
}.

(** The value of an integer true division: the exact quotient (numpy
    rounds it to the nearest binary64), or what a zero divisor gives. *)
Inductive quotient : Type :=
| Finite (q : Q)
| NaN
| Inf (negative : bool).

(** ** The library calls the notebooks make

    Every call may raise.  The frame the trajectory is at is the one piece
    of state the calls share: iterating [u.trajectory] sets it and
    [group.positions] reads it.  It is passed explicitly, so [positions]
    takes the frame [ts] of the current pass. *)

Class Library (exn : Type) : Type := {
  (** [group.positions], with the trajectory at frame [ts] *)
  positions : AtomGroup -> Timestep -> result exn (list coordinate);
  (** [contacts.distance_array(a, b)] *)
  distance_array :
    list coordinate -> list coordinate -> result exn (list (list float));
  (** [contacts.contact_matrix(dist, radius)] *)
  contact_matrix :
    list (list float) -> float -> result exn (list (list bool));
  (** [m.sum()] of a boolean matrix *)
  matrix_sum : list (list bool) -> result exn Z;
  (** [np.array(rows)] *)
  np_array : list (list Z) -> result exn ndarray;
  (** [r < x] *)
  array_lt : list float -> float -> result exn (list bool);
  (** [r > x] *)
  array_gt : list float -> float -> result exn (list bool);
  (** [a & b] *)
  array_and : list bool -> list bool -> result exn (list bool);
  (** [a.sum()] of a boolean array *)
  array_sum : list bool -> result exn Z;
  (** [r.size] *)
  array_size : list float -> result exn Z;
  (** [k / n] of two integers *)
  true_divide : Z -> Z -> result exn quotient
}.

(** ** The two notebook functions *)

Section Notebooks.

Context {exn : Type} {L : Library exn}.

(** <<
    def contacts_within_cutoff(u, group_a, group_b, radius=4.5):
        timeseries = []
        for ts in u.trajectory:
            # calculate distances between group_a and group_b
            dist = contacts.distance_array(group_a.positions, group_b.positions)
            # determine which distances <= radius
            n_contacts = contacts.contact_matrix(dist, radius).sum()
            timeseries.append([ts.frame, n_contacts])
        return np.array(timeseries)
    >> *)
Definition contacts_within_cutoff (u : Universe)
    (group_a group_b : AtomGroup) (radius : float) : result exn ndarray :=
  timeseries <-
    for_each (trajectory u)
      (fun timeseries ts =>
         pos_a <- positions group_a ts ;;
         pos_b <- positions group_b ts ;;
         dist <- distance_array pos_a pos_b ;;
         cm <- contact_matrix dist radius ;;
         n_contacts <- matrix_sum cm ;;
         Ok (timeseries ++ [[frame ts; n_contacts]]))
      [] ;;
  np_array timeseries.

(** <<
    def fraction_contacts_between(r, r0, radius=3.4, min_radius=2.5):
        is_in_contact = (r < radius) & (r > min_radius)  # array of bools
        fraction = is_in_contact.sum()/r.size
        return fraction
    >> *)
Definition fraction_contacts_between (r r0 : list float)
    (radius min_radius : float) : result exn quotient :=
  below <- array_lt r radius ;;
  above <- array_gt r min_radius ;;
  is_in_contact <- array_and below above ;;
  total <- array_sum is_in_contact ;;
  size <- array_size r ;;
  true_divide total size.

(** The body of the loop, named: what one pass over a frame does to the
    local list [timeseries]. *)
Definition loop_body (group_a group_b : AtomGroup) (radius : float)
  (timeseries : list (list Z)) (ts : Timestep) : result exn (list (list Z)) :=
  pos_a <- positions group_a ts ;;
  pos_b <- positions group_b ts ;;
  dist <- distance_array pos_a pos_b ;;
  cm <- contact_matrix dist radius ;;
  n_contacts <- matrix_sum cm ;;
  Ok (timeseries ++ [[frame ts; n_contacts]]).

(** [n_contacts] is what the three calls of one pass return for frame
    [ts]: the sum of the contact matrix of the distance array of the two
    groups' positions. *)
Definition frame_count_is (group_a group_b : AtomGroup) (radius : float)
  (ts : Timestep) (n_contacts : Z) : Prop :=
  exists pos_a pos_b dist cm,
    positions group_a ts = Ok pos_a
    /\ positions group_b ts = Ok pos_b
    /\ distance_array pos_a pos_b = Ok dist
    /\ contact_matrix dist radius = Ok cm
    /\ matrix_sum cm = Ok n_contacts.

(** The rows of the table: one [[ts.frame, n_contacts]] per frame. *)
Definition table_rows (frames : list Timestep) (counts : list Z)
  : list (list Z) :=
  map (fun p => [frame (fst p); snd p]) (combine frames counts).

End Notebooks.

(** The keyword defaults of the two signatures ([3.4] is read as the
    nearest binary64 value, as Python reads it). *)
#[local] Set Warnings "-inexact-float".
Definition contacts_within_cutoff_radius : float := 4.5%float.
Definition fraction_contacts_between_radius : float := 3.4%float.
Definition fraction_contacts_between_min_radius : float := 2.5%float.

(** ** The documented behaviour of the library calls

    MDAnalysis and numpy are not part of the repository.  What their calls
    return is written down here from the specification (section 6,
    glossary) and from the notebooks' own comments and outputs. *)

(** The exceptions the reference calls can raise. *)
Inductive py_exn : Type :=
| ValueError
| IOError.

Section Reference.

(** The distance kernel of the library: the distance it reports for
    two coordinate rows.  It is a parameter: nothing below depends on
    how the kernel rounds. *)
Variable calc_distance : coordinate -> coordinate -> float.

(** Modelled from the spec: [AtomGroup.positions], the coordinate array
    of a derived atom-selection subset (section 3): one row per atom of
    the group, in the group's order, read from the current frame. *)
Definition lib_positions (g : AtomGroup) (ts : Timestep)
  : list coordinate :=
  map (ts_positions ts) (ix g).

(** Modelled from the spec: [contacts.distance_array], "a
    pairwise-distance function taking two coordinate arrays and
    returning a distance matrix" (section 6): row [i], column [j] holds
    the distance between row [i] of the first array and row [j] of the
    second. *)
Definition lib_distance_array (a b : list coordinate)
  : list (list float) :=
  map (fun p => map (fun q => calc_distance p q) b) a.

(** Modelled from the spec: [contacts.contact_matrix], "a thresholding
    function converting a distance matrix and a cutoff radius into a
    boolean contact matrix" (section 6).  The comparison is the one the
    call site records in its comment, "determine which distances <=
    radius" (cell 4, line 113). *)
Definition lib_contact_matrix (dist : list (list float)) (radius : float)
  : list (list bool) :=
  map (map (fun d => (d <=? radius)%float)) dist.

(** Modelled from the spec: [ndarray.sum] of a boolean array, the number
    of its [True] entries. *)
Definition count_true (l : list bool) : nat :=
  length (filter (fun b => b) l).

(** Modelled from the spec: [ndarray.sum] of a boolean matrix
    ("summation", section 4): the number of its [True] entries. *)
Definition lib_matrix_sum (m : list (list bool)) : Z :=
  Z.of_nat (count_true (concat m)).

(** Modelled from the spec: the shape of [np.array(rows)], the "2-column
    numeric table" of section 3 (the notebook prints [(98, 2)] for 98
    frames).  An empty list gives the empty one-dimensional array; rows
    of unequal length give a one-dimensional array of row objects. *)
Definition lib_shape (rows : list (list Z)) : list nat :=
  match rows with
  | [] => [0%nat]
  | r :: rest =>
      if forallb (fun r' => length r' =? length r)%nat rest
      then [length rows; length r]
      else [length rows]
  end.

(** Modelled from the spec: [np.array(rows)], the rows under that shape. *)
Definition lib_array (rows : list (list Z)) : ndarray :=
  {| shape := lib_shape rows; data := rows |}.

(** Modelled from the spec: numpy's elementwise comparison [r < x] of an
    array with a scalar. *)
Definition lib_lt (r : list float) (x : float) : list bool :=
  map (fun d => (d <? x)%float) r.

(** Modelled from the spec: numpy's elementwise comparison [r > x], that
    is [x < r], of an array with a scalar. *)
Definition lib_gt (r : list float) (x : float) : list bool :=
  map (fun d => (x <? d)%float) r.

(** Modelled from the spec: numpy's elementwise [&] of two boolean
    arrays; an array of one entry is broadcast, other unequal lengths
    raise [ValueError]. *)
Definition lib_and (x y : list bool) : result py_exn (list bool) :=
  if (length x =? length y)%nat
  then Ok (map (fun p => fst p && snd p) (combine x y))
  else
    match x, y with
    | [b], _ => Ok (map (andb b) y)
    | _, [b] => Ok (map (fun c => c && b) x)
    | _, _ => Raise ValueError
    end.

(** Modelled from the spec: [ndarray.size], the number of entries. *)
Definition lib_size (r : list float) : Z := Z.of_nat (length r).

(** Modelled from the spec: numpy's true division of two integers.  A
    zero divisor raises nothing: it gives [nan] for [0/0] and an
    infinity otherwise (with a runtime warning). *)
Definition lib_true_divide (k n : Z) : quotient :=
  if (n =? 0)%Z
  then (if (k =? 0)%Z then NaN else Inf (k <? 0)%Z)
  else Finite (inject_Z k / inject_Z n)%Q.

#[export] Instance reference_library : Library py_exn := {
  positions g ts := Ok (lib_positions g ts);
  distance_array a b := Ok (lib_distance_array a b);
  contact_matrix dist radius := Ok (lib_contact_matrix dist radius);
  matrix_sum m := Ok (lib_matrix_sum m);
  np_array rows := Ok (lib_array rows);
  array_lt r x := Ok (lib_lt r x);
  array_gt r x := Ok (lib_gt r x);
  array_and := lib_and;
  array_sum a := Ok (Z.of_nat (count_true a));
  array_size r := Ok (lib_size r);
  true_divide k n := Ok (lib_true_divide k n)
}.

End Reference.

(** A concrete distance kernel for worked examples: the Euclidean
    distance, computed in binary64. *)
Definition euclid (p q : coordinate) : float :=
  let '(px, py, pz) := p in
  let '(qx, qy, qz) := q in
  let dx := (px - qx)%float in
  let dy := (py - qy)%float in
  let dz := (pz - qz)%float in
  PrimFloat.sqrt (dx * dx + dy * dy + dz * dz)%float.

(** A library in which reading a group's coordinates raises [IOError] and
    [&] raises [ValueError]; every other call is the reference one.  It
    stands for no particular fault: it serves to exercise the paths on
    which a call inside a pass raises. *)
Definition faulty_library : Library py_exn := {|
  positions := fun _ _ => Raise IOError;
  distance_array := distance_array (Library := reference_library euclid);
  contact_matrix := contact_matrix (Library := reference_library euclid);
  matrix_sum := matrix_sum (Library := reference_library euclid);
  np_array := np_array (Library := reference_library euclid);
  array_lt := array_lt (Library := reference_library euclid);
  array_gt := array_gt (Library := reference_library euclid);
  array_and := fun _ _ => Raise ValueError;
  array_sum := array_sum (Library := reference_library euclid);
  array_size := array_size (Library := reference_library euclid);
  true_divide := true_divide (Library := reference_library euclid)
|}.

(** ** What the claims speak of *)

(** The contacts of a frame: the pairs of an atom of [group_a] and an atom
    of [group_b] that the kernel puts at a distance [<= radius]. *)
Definition contacts_in_frame (calc_distance : coordinate -> coordinate -> float)
  (ts : Timestep) (group_a group_b : AtomGroup) (radius : float)
  : list (nat * nat) :=
  filter
    (fun p => (calc_distance (ts_positions ts (fst p))
                             (ts_positions ts (snd p)) <=? radius)%float)
    (list_prod (ix group_a) (ix group_b)).

(** The same pairs under the strict reading: distance [< radius]. *)
Definition pairs_strictly_below
  (calc_distance : coordinate -> coordinate -> float)
  (ts : Timestep) (group_a group_b : AtomGroup) (radius : float)
  : list (nat * nat) :=
  filter
    (fun p => (calc_distance (ts_positions ts (fst p))
                             (ts_positions ts (snd p)) <? radius)%float)
    (list_prod (ix group_a) (ix group_b)).

(** The distance matrix and the contact matrix of a frame, as the
    reference calls build them. *)
Definition frame_distances (calc_distance : coordinate -> coordinate -> float)
  (group_a group_b : AtomGroup) (ts : Timestep) : list (list float) :=
  lib_distance_array calc_distance
    (lib_positions group_a ts) (lib_positions group_b ts).

Definition frame_contact_matrix
  (calc_distance : coordinate -> coordinate -> float)
  (group_a group_b : AtomGroup) (radius : float) (ts : Timestep)
  : list (list bool) :=
  lib_contact_matrix (frame_distances calc_distance group_a group_b ts) radius.

(** The entries of [r] strictly between [min_radius] and [radius]. *)
Definition entries_between (r : list float) (radius min_radius : float)
  : list float :=
  filter (fun d => (min_radius <? d)%float && (d <? radius)%float) r.

(** Two frames agree for the two groups: same frame number, same
    coordinates for every atom of either group. *)
Definition frames_agree (group_a group_b : AtomGroup) (ts ts' : Timestep)
  : Prop :=
  frame ts = frame ts'
  /\ forall i, In i (ix group_a ++ ix group_b) ->
               ts_positions ts i = ts_positions ts' i.

(** Entry [(i, j)] of a matrix, when it has one. *)
Definition entry {A : Type} (m : list (list A)) (i j : nat) : option A :=
  match nth_error m i with
  | Some row => nth_error row j
  | None => None
  end.

(** The exact value of the fraction: entries in contact over entries. *)
Definition exact_fraction (r : list float) (radius min_radius : float) : Q :=
  (inject_Z (Z.of_nat (length (entries_between r radius min_radius)))
   / inject_Z (Z.of_nat (length r)))%Q.

(** Column [j] of an array. *)
Definition column (j : nat) (arr : ndarray) : list Z :=
  map (fun row => nth j row 0%Z) (data arr).

(** Two columns added entry by entry. *)
Definition add_columns (c1 c2 : list Z) : list Z :=
  map (fun p => (fst p + snd p)%Z) (combine c1 c2).

(** Reading the outcome of a binary64 comparison: "less or equal" and
    "less"; an unordered pair (a [nan] on either side) is neither. *)
Definition cmp_le (c : option comparison) : bool :=
  match c with
  | Some Lt | Some Eq => true
  | _ => false
  end.

Definition cmp_lt (c : option comparison) : bool :=
  match c with
  | Some Lt => true
  | _ => false
  end.

(** ** Universes the library builds, and reading their trajectory *)

(** A universe as the library hands it out.  MDAnalysis builds no universe
    whose trajectory has no frame, so there is a first frame. *)
Record LoadedUniverse : Type := {
  first_frame : Timestep;
  later_frames : list Timestep
}.

Definition universe_of (u : LoadedUniverse) : Universe :=
  {| trajectory := first_frame u :: later_frames u |}.

(** What [for ts in u.trajectory] gets from the reader: the frames it
    hands out, in order, and the exception that ended the iteration when
    opening the trajectory or fetching the next frame raised ([None]: the
    reader reached the end). *)
Record Iteration (exn : Type) : Type := {
  frames_read : list Timestep;
  read_error : option exn
}.

Arguments frames_read {exn} _.
Arguments read_error {exn} _.

(** Iterating [u.trajectory] is a library call like the others. *)
Class Reader (exn : Type) : Type := {
  iterate : Universe -> Iteration exn
}.

(** The reader of a trajectory that reads without fault: it hands out
    every frame and reaches the end. *)
Definition reference_reader : Reader py_exn := {|
  iterate := fun u => {| frames_read := trajectory u; read_error := None |}
|}.

(** The reader of a trajectory file that cannot be opened any more:
    starting the iteration raises [IOError] before any frame is handed
    out. *)
Definition unreadable_reader : Reader py_exn := {|
  iterate := fun _ => {| frames_read := []; read_error := Some IOError |}
|}.

(** The state the calls share: the frame the trajectory is at
    ([u.trajectory.ts]) and, for the record, the coordinate reads made so
    far: which group was read with the trajectory at which frame. *)
Record world : Type := {
  current : Timestep;
  reads : list (AtomGroup * Timestep)
}.

Section Run.

Context {exn : Type} {L : Library exn} {R : Reader exn}.

(** A computation that may raise and may change the shared state; an
    exception leaves the state as it was when it was raised. *)
Definition stateful (A : Type) : Type := world -> result exn A * world.

Definition ret_st {A : Type} (a : A) : stateful A := fun w => (Ok a, w).

Definition raise_st {A : Type} (e : exn) : stateful A :=
  fun w => (Raise e, w).

Definition bind_st {A B : Type} (c : stateful A) (k : A -> stateful B)
  : stateful B :=
  fun w =>
    match c w with
    | (Ok a, w') => k a w'
    | (Raise e, w') => (Raise e, w')
    end.

Notation "x <~ c ;; k" := (bind_st c (fun x => k))
  (at level 61, c at next level, right associativity).

(** A library call that does not touch the state. *)
Definition call {A : Type} (c : result exn A) : stateful A :=
  fun w => (c, w).

(** The reader makes [ts] the frame the trajectory is at. *)
Definition make_current (ts : Timestep) : stateful unit :=
  fun w => (Ok tt, {| current := ts; reads := reads w |}).

(** After the last frame the reader rewinds to the first one. *)
Definition rewind (frames : list Timestep) : stateful unit :=
  fun w => (Ok tt, {| current := hd (current w) frames; reads := reads w |}).

(** [group.positions]: the coordinates of the group's atoms in the frame
    the trajectory is at. *)
Definition read_positions (g : AtomGroup) : stateful (list coordinate) :=
  fun w =>
    (positions g (current w),
     {| current := current w; reads := reads w ++ [(g, current w)] |}).

(** [for ts in frames]: the reader makes each frame current, then the
    body runs with [ts] bound to it. *)
Fixpoint for_each_frame {S : Type} (frames : list Timestep)
    (body : S -> Timestep -> stateful S) (s : S) : stateful S :=
  match frames with
  | [] => ret_st s
  | ts :: rest =>
      done <~ make_current ts ;;
      s' <~ body s ts ;;
      for_each_frame rest body s'
  end.

(** [contacts_within_cutoff] with nothing taken for granted: the
    iteration is the reader's and may raise, and [group.positions] reads
    the frame the trajectory is at.  ([contacts_within_cutoff] above is
    this function on a reader that reads without fault, the current frame
    passed by hand.) *)
Definition contacts_within_cutoff_run (u : Universe)
    (group_a group_b : AtomGroup) (radius : float) : stateful ndarray :=
  timeseries <~
    for_each_frame (frames_read (iterate u))
      (fun timeseries ts =>
         pos_a <~ read_positions group_a ;;
         pos_b <~ read_positions group_b ;;
         dist <~ call (distance_array pos_a pos_b) ;;
         cm <~ call (contact_matrix dist radius) ;;
         n_contacts <~ call (matrix_sum cm) ;;
         ret_st (timeseries ++ [[frame ts; n_contacts]]))
      [] ;;
  match read_error (iterate u) with
  | Some e => raise_st e
  | None =>
      done <~ rewind (frames_read (iterate u)) ;;
      call (np_array timeseries)
  end.

(** The body of that loop, named. *)
Definition pass (group_a group_b : AtomGroup) (radius : float)
  (timeseries : list (list Z)) (ts : Timestep) : stateful (list (list Z)) :=
  pos_a <~ read_positions group_a ;;
  pos_b <~ read_positions group_b ;;
  dist <~ call (distance_array pos_a pos_b) ;;
  cm <~ call (contact_matrix dist radius) ;;
  n_contacts <~ call (matrix_sum cm) ;;
  ret_st (timeseries ++ [[frame ts; n_contacts]]).

(** The pass over frame [ts] raises [e]: one of its five calls does, the
    calls before it having returned. *)
Definition pass_raises (group_a group_b : AtomGroup) (radius : float)
  (ts : Timestep) (e : exn) : Prop :=
  positions group_a ts = Raise e
  \/ (exists pos_a,
        positions group_a ts = Ok pos_a
        /\ (positions group_b ts = Raise e
            \/ exists pos_b,
                 positions group_b ts = Ok pos_b
                 /\ (distance_array pos_a pos_b = Raise e
                     \/ exists dist,
                          distance_array pos_a pos_b = Ok dist
                          /\ (contact_matrix dist radius = Raise e
                              \/ exists cm,
                                   contact_matrix dist radius = Ok cm
                                   /\ matrix_sum cm = Raise e)))).

(** Where a run of [contacts_within_cutoff] raises [e]: in the pass over
    a frame, the passes over the earlier frames having returned their
    counts; in the reader, after the passes over all the frames it handed
    out; or in [np.array], applied to the rows of all the frames. *)
Inductive run_raises (u : Universe) (group_a group_b : AtomGroup)
    (radius : float) (e : exn) : Prop :=
| raised_in_pass earlier ts later counts :
    frames_read (iterate u) = earlier ++ ts :: later ->
    Forall2 (frame_count_is group_a group_b radius) earlier counts ->
    pass_raises group_a group_b radius ts e ->
    run_raises u group_a group_b radius e
| raised_by_reader counts :
    Forall2 (frame_count_is group_a group_b radius)
      (frames_read (iterate u)) counts ->
    read_error (iterate u) = Some e ->
    run_raises u group_a group_b radius e
| raised_by_np_array counts :
    Forall2 (frame_count_is group_a group_b radius)
      (frames_read (iterate u)) counts ->
    read_error (iterate u) = None ->
    np_array (table_rows (frames_read (iterate u)) counts) = Raise e ->
    run_raises u group_a group_b radius e.

(** Where [fraction_contacts_between] raises [e]: in one of its six
    calls, the calls before it having returned. *)
Definition fraction_raises (r : list float) (radius min_radius : float)
  (e : exn) : Prop :=
  array_lt r radius = Raise e
  \/ (exists below,
        array_lt r radius = Ok below
        /\ (array_gt r min_radius = Raise e
            \/ exists above,
                 array_gt r min_radius = Ok above
                 /\ (array_and below above = Raise e
                     \/ exists is_in_contact,
                          array_and below above = Ok is_in_contact
                          /\ (array_sum is_in_contact = Raise e
                              \/ exists total,
                                   array_sum is_in_contact = Ok total
                                   /\ (array_size r = Raise e
                                       \/ exists size,
                                            array_size r = Ok size
                                            /\ true_divide total size
                                               = Raise e))))).

End Run.


(** ** Worked examples *)

Definition origin : coordinate := (0, 0, 0)%float.

(** Two atoms, 4.5 apart in frame 0 and 6 apart in frame 1. *)
Definition frame_zero : Timestep := {|
  frame := 0;
  ts_positions := fun i => nth i [origin; (4.5, 0, 0)%float] origin
|}.

Definition frame_one : Timestep := {|
  frame := 1;
  ts_positions := fun i => nth i [origin; (6, 0, 0)%float] origin
|}.

Definition two_atoms : Universe := {| trajectory := [frame_zero; frame_one] |}.

(** The same trajectory with bystander atoms (index 2 and up) elsewhere. *)
Definition two_atoms_bystanders : Universe := {|
  trajectory :=
    [ {| frame := 0;
         ts_positions :=
           fun i => nth i [origin; (4.5, 0, 0)%float] (1, 1, 1)%float |};
      {| frame := 1;
         ts_positions :=
           fun i => nth i [origin; (6, 0, 0)%float] (2, 2, 2)%float |} ]
|}.

Definition both_atoms : AtomGroup := {| ix := [0%nat; 1%nat] |}.
Definition first_atom : AtomGroup := {| ix := [0%nat] |}.
Definition second_atom : AtomGroup := {| ix := [1%nat] |}.

(** The shared state with the trajectory at [ts] and nothing read yet. *)
Definition world_at (ts : Timestep) : world :=
  {| current := ts; reads := [] |}.

Example two_atoms_run :
  contacts_within_cutoff (L := reference_library euclid)
    two_atoms first_atom second_atom 4.5%float
  = Ok {| shape := [2%nat; 2%nat]; data := [[0; 1]; [1; 0]]%Z |}.
Proof. reflexivity. Qed.

Example two_atoms_faulty_run :
  contacts_within_cutoff (L := faulty_library)
    two_atoms first_atom second_atom 4.5%float
  = Raise IOError.
Proof. reflexivity. Qed.

(** A run that finds the trajectory at frame 1: the reader starts over
    from frame 0, reads the two groups frame after frame, and rewinds. *)
Example two_atoms_full_run :
  contacts_within_cutoff_run
    (L := reference_library euclid) (R := reference_reader)
    two_atoms first_atom second_atom 4.5%float (world_at frame_one)
  = (Ok {| shape := [2%nat; 2%nat]; data := [[0; 1]; [1; 0]]%Z |},
     {| current := frame_zero;
        reads := [(first_atom, frame_zero); (second_atom, frame_zero);
                  (first_atom, frame_one); (second_atom, frame_one)] |}).
Proof. reflexivity. Qed.

Example two_atoms_unreadable_run :
  contacts_within_cutoff_run
    (L := reference_library euclid) (R := unreadable_reader)
    two_atoms first_atom second_atom 4.5%float (world_at frame_one)
  = (Raise IOError, world_at frame_one).
Proof. reflexivity. Qed.

Example fraction_run :
  fraction_contacts_between (L := reference_library euclid)
    [3; 2.5; 5; 4]%float [] 5%float 2.5%float
  = Ok (Finite (inject_Z 2 / inject_Z 4)%Q).
Proof. reflexivity. Qed.

Example fraction_empty_run :
  fraction_contacts_between (L := reference_library euclid)
    [] [] 5%float 2.5%float
  = Ok NaN.
Proof. reflexivity. Qed.

(** ** The loop *)

Section Loop.

Context {E A S : Type}.

(** A loop over [xs ++ ys] is the loop over [xs] followed, from the state
    it leaves, by the loop over [ys]. *)
Lemma for_each_app (body : S -> A -> result E S) (xs ys : list A) (s : S) :
  for_each (xs ++ ys) body s
  = (s' <- for_each xs body s ;; for_each ys body s').
Proof.
  revert s. induction xs as [|x xs IH]; intros s; cbn [for_each app bind].
  - reflexivity.
  - destruct (body s x) as [s'|e]; cbn [bind]; [apply IH | reflexivity].
Qed.

(** A body that only appends one computed row never raises, and the loop
    appends the rows in the order of the frames. *)
Lemma for_each_append {R : Type} (row : A -> R) (xs : list A) (acc : list R) :
  for_each (E := E) xs (fun s x => Ok (s ++ [row x])) acc
  = Ok (acc ++ map row xs).
Proof.
  revert acc. induction xs as [|x xs IH]; intros acc; cbn [for_each map bind].
  - now rewrite app_nil_r.
  - rewrite IH, <- app_assoc. reflexivity.
Qed.

(** An exception that leaves the loop was raised by the body at one of
    the elements. *)
Lemma for_each_raise (body : S -> A -> result E S) (xs : list A) (s : S)
    (e : E) :
  for_each xs body s = Raise e ->
  exists s' x, In x xs /\ body s' x = Raise e.
Proof.
  revert s. induction xs as [|x xs IH]; intros s H; cbn [for_each] in H.
  - discriminate.
  - destruct (body s x) as [s'|e'] eqn:Hb; cbn [bind] in H.
    + destruct (IH _ H) as (s'' & y & Hy & Hr).
      exists s'', y. split; [now right | exact Hr].
    + exists s, x. split; [now left | congruence].
Qed.

End Loop.

(** ** Facts that hold for every library *)

Section AnyLibrary.

Context {exn : Type} {L : Library exn}.

Lemma contacts_within_cutoff_loop (u : Universe) (group_a group_b : AtomGroup)
    (radius : float) :
  contacts_within_cutoff u group_a group_b radius
  = (timeseries <-
       for_each (trajectory u) (loop_body group_a group_b radius) [] ;;
     np_array timeseries).
Proof. reflexivity. Qed.

(** *** The shape of a successful run *)

(** Peel the first call of a chain that ended in [Ok]. *)
Ltac first_ok H :=
  match type of H with
  | bind ?c _ = Ok _ =>
      let v := fresh "v" in
      let e' := fresh "e" in
      let Hc := fresh "Hc" in
      destruct c as [v|e'] eqn:Hc; cbn [bind] in H; [ | discriminate H ]
  end.

Lemma loop_body_ok (group_a group_b : AtomGroup) (radius : float)
    (timeseries rows : list (list Z)) (ts : Timestep) :
  loop_body group_a group_b radius timeseries ts = Ok rows ->
  exists n_contacts,
    frame_count_is group_a group_b radius ts n_contacts
    /\ rows = timeseries ++ [[frame ts; n_contacts]].
Proof.
  unfold loop_body, frame_count_is. intros H.
  do 5 first_ok H. injection H as <-.
  eexists. split; [|reflexivity]. eauto 10.
Qed.

Lemma loop_ok (group_a group_b : AtomGroup) (radius : float)
    (frames : list Timestep) (acc rows : list (list Z)) :
  for_each frames (loop_body group_a group_b radius) acc = Ok rows ->
  exists counts,
    Forall2 (frame_count_is group_a group_b radius) frames counts
    /\ rows = acc ++ table_rows frames counts.
Proof.
  revert acc. induction frames as [|ts frames IH]; intros acc H;
    cbn [for_each] in H.
  - injection H as <-. exists []. split; [constructor|].
    unfold table_rows. cbn [combine map]. now rewrite app_nil_r.
  - first_ok H.
    apply loop_body_ok in Hc as (c & Hcount & ->).
    apply IH in H as (counts & Hcounts & ->).
    exists (c :: counts). split; [now constructor|].
    unfold table_rows. cbn [combine map fst snd].
    now rewrite <- app_assoc.
Qed.

End AnyLibrary.

(** ** Facts about the reference library *)

Section ReferenceFacts.

Variable calc_distance : coordinate -> coordinate -> float.

Lemma count_true_map {A : Type} (f : A -> bool) (l : list A) :
  count_true (map f l) = length (filter f l).
Proof.
  unfold count_true. induction l as [|x l IH]; cbn [map filter length].
  - reflexivity.
  - destruct (f x); cbn [length]; now rewrite IH.
Qed.

Lemma count_true_le (l : list bool) : (count_true l <= length l)%nat.
Proof.
  unfold count_true. induction l as [|b l IH]; cbn [filter length].
  - lia.
  - destruct b; cbn [length]; lia.
Qed.

(** Flattening a matrix built row by row from two lists enumerates the
    pairs of [list_prod], in its order. *)
Lemma concat_map_map {A B C : Type} (f : A -> B -> C) (l : list A)
    (l' : list B) :
  concat (map (fun x => map (fun y => f x y) l') l)
  = map (fun p => f (fst p) (snd p)) (list_prod l l').
Proof.
  induction l as [|x l IH]; cbn [map concat list_prod].
  - reflexivity.
  - rewrite IH, map_app, map_map. reflexivity.
Qed.

Lemma list_prod_map {A B A' B' : Type} (g : A -> A') (h : B -> B')
    (l : list A) (l' : list B) :
  list_prod (map g l) (map h l')
  = map (fun p => (g (fst p), h (snd p))) (list_prod l l').
Proof.
  induction l as [|x l IH]; cbn [map list_prod].
  - reflexivity.
  - rewrite IH, map_app, !map_map. reflexivity.
Qed.

Lemma filter_map_length {A B : Type} (f : B -> bool) (g : A -> B)
    (l : list A) :
  length (filter f (map g l)) = length (filter (fun x => f (g x)) l).
Proof.
  induction l as [|x l IH]; cbn [map filter length].
  - reflexivity.
  - destruct (f (g x)); cbn [length]; now rewrite IH.
Qed.

(** The sum of a frame's contact matrix counts the contacts of the frame. *)
Lemma frame_sum_counts (group_a group_b : AtomGroup) (radius : float)
    (ts : Timestep) :
  lib_matrix_sum
    (frame_contact_matrix calc_distance group_a group_b radius ts)
  = Z.of_nat
      (length (contacts_in_frame calc_distance ts group_a group_b radius)).
Proof.
  unfold lib_matrix_sum, frame_contact_matrix, frame_distances,
    lib_contact_matrix, lib_distance_array, lib_positions, contacts_in_frame.
  f_equal.
  rewrite map_map.
  erewrite map_ext by (intros; apply map_map).
  rewrite concat_map_map, count_true_map, list_prod_map, filter_map_length.
  reflexivity.
Qed.

(** The rows the loop collects, and the array made of them. *)
Lemma reference_run (u : Universe) (group_a group_b : AtomGroup)
    (radius : float) :
  contacts_within_cutoff (L := reference_library calc_distance)
    u group_a group_b radius
  = Ok (lib_array
          (map (fun ts =>
                  [frame ts;
                   lib_matrix_sum
                     (frame_contact_matrix calc_distance
                        group_a group_b radius ts)])
               (trajectory u))).
Proof.
  unfold contacts_within_cutoff.
  cbn [positions distance_array contact_matrix matrix_sum np_array
       reference_library bind].
  rewrite (for_each_append (E := py_exn)
             (fun ts =>
                [frame ts;
                 lib_matrix_sum
                   (frame_contact_matrix calc_distance
                      group_a group_b radius ts)])).
  reflexivity.
Qed.

Lemma lib_shape_pairs {A : Type} (row : A -> list Z) (l : list A) :
  (forall x, length (row x) = 2%nat) -> l <> [] ->
  lib_shape (map row l) = [length l; 2%nat].
Proof.
  intros Hrow Hl. destruct l as [|x l]; [congruence|].
  cbn [map lib_shape].
  replace (forallb _ _) with true.
  - cbn [length]. now rewrite length_map, Hrow.
  - symmetry. apply forallb_forall. intros r Hr.
    apply in_map_iff in Hr as (y & <- & _).
    rewrite !Hrow. reflexivity.
Qed.

Lemma entry_map_map {A B : Type} (f : A -> B) (m : list (list A))
    (i j : nat) :
  entry (map (map f) m) i j = option_map f (entry m i j).
Proof.
  unfold entry. rewrite nth_error_map.
  destruct (nth_error m i) as [row|]; cbn [option_map].
  - apply nth_error_map.
  - reflexivity.
Qed.

Lemma frame_distances_entry (group_a group_b : AtomGroup) (ts : Timestep)
    (i j ai bj : nat) :
  nth_error (ix group_a) i = Some ai ->
  nth_error (ix group_b) j = Some bj ->
  entry (frame_distances calc_distance group_a group_b ts) i j
  = Some (calc_distance (ts_positions ts ai) (ts_positions ts bj)).
Proof.
  intros Ha Hb.
  unfold entry, frame_distances, lib_distance_array, lib_positions.
  rewrite !nth_error_map, Ha. cbn [option_map].
  rewrite !nth_error_map, Hb. reflexivity.
Qed.

Lemma frame_distances_shape (group_a group_b : AtomGroup) (ts : Timestep) :
  length (frame_distances calc_distance group_a group_b ts)
  = length (ix group_a)
  /\ Forall (fun row => length row = length (ix group_b))
       (frame_distances calc_distance group_a group_b ts).
Proof.
  unfold frame_distances, lib_distance_array, lib_positions. split.
  - now rewrite !length_map.
  - apply Forall_map, Forall_forall. intros p _. now rewrite !length_map.
Qed.

Lemma contacts_in_frame_le (group_a group_b : AtomGroup) (radius : float)
    (ts : Timestep) :
  (length (contacts_in_frame calc_distance ts group_a group_b radius)
   <= length (ix group_a) * length (ix group_b))%nat.
Proof.
  unfold contacts_in_frame.
  rewrite <- length_prod. apply filter_length_le.
Qed.

Lemma combine_map_map {A B C : Type} (f : A -> B) (g : A -> C) (l : list A) :
  combine (map f l) (map g l) = map (fun x => (f x, g x)) l.
Proof.
  induction l as [|x l IH]; cbn [map combine]; [reflexivity | now rewrite IH].
Qed.

(** [&] of the two comparisons of one array: the lengths agree, nothing
    is broadcast and nothing raises. *)
Lemma lib_and_comparisons (r : list float) (radius min_radius : float) :
  lib_and (lib_lt r radius) (lib_gt r min_radius)
  = Ok (map (fun d => (d <? radius)%float && (min_radius <? d)%float) r).
Proof.
  unfold lib_and, lib_lt, lib_gt.
  rewrite !length_map, Nat.eqb_refl, combine_map_map, map_map.
  reflexivity.
Qed.

Lemma reference_fraction (r r0 : list float) (radius min_radius : float) :
  fraction_contacts_between (L := reference_library calc_distance)
    r r0 radius min_radius
  = Ok (lib_true_divide
          (Z.of_nat (length (entries_between r radius min_radius)))
          (Z.of_nat (length r))).
Proof.
  unfold fraction_contacts_between.
  cbn [array_lt array_gt array_and array_sum array_size true_divide
       reference_library bind].
  rewrite lib_and_comparisons. cbn [bind].
  rewrite count_true_map. unfold lib_size, entries_between.
  do 4 f_equal. apply filter_ext. intros d. apply andb_comm.
Qed.

Lemma entries_between_le (r : list float) (radius min_radius : float) :
  (length (entries_between r radius min_radius) <= length r)%nat.
Proof. apply filter_length_le. Qed.

Lemma exact_fraction_bounds (r : list float) (radius min_radius : float) :
  r <> [] ->
  (0 <= exact_fraction r radius min_radius <= 1)%Q.
Proof.
  intros Hr. unfold exact_fraction.
  pose proof (entries_between_le r radius min_radius) as Hle.
  assert (0 < length r)%nat as Hpos
    by (destruct r; [congruence | cbn [length]; lia]).
  assert (0 < inject_Z (Z.of_nat (length r)))%Q as HposQ
    by (unfold Qlt, inject_Z; cbn [Qnum Qden]; lia).
  split.
  - apply Qle_shift_div_l; [exact HposQ|].
    unfold Qle, Qmult, inject_Z; cbn [Qnum Qden]. lia.
  - apply Qle_shift_div_r; [exact HposQ|].
    unfold Qle, Qmult, inject_Z; cbn [Qnum Qden]. lia.
Qed.

Lemma lib_positions_agree (group_a group_b : AtomGroup) (ts ts' : Timestep) :
  frames_agree group_a group_b ts ts' ->
  lib_positions group_a ts = lib_positions group_a ts'
  /\ lib_positions group_b ts = lib_positions group_b ts'.
Proof.
  intros [_ Hpos]. unfold lib_positions.
  split; apply map_ext_in; intros i Hi; apply Hpos, in_or_app; tauto.
Qed.

Lemma map_Forall2 {A B : Type} (f : A -> B) (R : A -> A -> Prop)
    (l l' : list A) :
  (forall x y, R x y -> f x = f y) -> Forall2 R l l' -> map f l = map f l'.
Proof.
  intros Hf H. induction H as [|x y l l' Hxy _ IH]; cbn [map].
  - reflexivity.
  - now rewrite (Hf x y Hxy), IH.
Qed.

End ReferenceFacts.

(** ** The claims *)

(** The table of a trajectory with at least one frame: an array of shape
    [(n, 2)] with one row per frame, in iteration order; the first entry
    of a row is the frame's number [ts.frame], the second the number of
    contacts of that frame. *)
Lemma contacts_within_cutoff_table
    (calc_distance : coordinate -> coordinate -> float)
    (u : Universe) (group_a group_b : AtomGroup) (radius : float) :
  trajectory u <> [] ->
  contacts_within_cutoff (L := reference_library calc_distance)
    u group_a group_b radius
  = Ok {| shape := [length (trajectory u); 2%nat];
          data :=
            map (fun ts =>
                   [frame ts;
                    Z.of_nat
                      (length (contacts_in_frame calc_distance ts
                                 group_a group_b radius))])
                (trajectory u) |}.
Proof.
  intros Hframes. rewrite reference_run. unfold lib_array.
  rewrite lib_shape_pairs by (reflexivity || assumption).
  do 2 f_equal. apply map_ext. intros ts.
  now rewrite frame_sum_counts.
Qed.

Lemma contacts_within_cutoff_table_two_atoms :
  trajectory two_atoms <> []
  /\ contacts_within_cutoff (L := reference_library euclid)
       two_atoms first_atom second_atom 4.5%float
     = Ok {| shape := [2%nat; 2%nat]; data := [[0; 1]; [1; 0]]%Z |}.
Proof.
  split.
  - discriminate.
  - rewrite (contacts_within_cutoff_table euclid two_atoms
               first_atom second_atom 4.5%float) by discriminate.
    reflexivity.
Defined.

(** C2, as stated, at two atoms exactly 4.5 apart with radius 4.5: the
    pair is counted in frame 0, although its distance is not strictly
    below the radius. *)
Lemma contacts_within_cutoff_counts_equal_distance :
  exists arr,
    contacts_within_cutoff (L := reference_library euclid)
      two_atoms first_atom second_atom 4.5%float = Ok arr
    /\ column 1 arr = [1; 0]%Z
    /\ map (fun ts =>
              Z.of_nat
                (length (pairs_strictly_below euclid ts
                           first_atom second_atom 4.5%float)))
           (trajectory two_atoms)
       = [0; 0]%Z.
Proof. eexists. repeat split. Qed.

(** C2, amended: for every frame, the count that [contacts_within_cutoff]
    reports is the number of pairs [(a, b)], [a] from [group_a] and [b]
    from [group_b], whose distance is at most the cutoff radius ([<=],
    equality included). *)
Theorem contacts_within_cutoff_counts_pairs
    (calc_distance : coordinate -> coordinate -> float)
    (u : Universe) (group_a group_b : AtomGroup) (radius : float) :
  exists arr,
    contacts_within_cutoff (L := reference_library calc_distance)
      u group_a group_b radius = Ok arr
    /\ column 1 arr
       = map (fun ts =>
                Z.of_nat
                  (length (contacts_in_frame calc_distance ts
                             group_a group_b radius)))
             (trajectory u).
Proof.
  eexists. split; [apply reference_run|].
  unfold column, lib_array. cbn [data]. rewrite map_map.
  apply map_ext. intros ts. cbn [nth]. apply frame_sum_counts.
Qed.

(** C3: in every frame, the distance function applied to the positions
    of the two groups gives a matrix of [len(group_a)] rows of
    [len(group_b)] entries whose entry [(i, j)] is the distance between
    atom [i] of [group_a] and atom [j] of [group_b]; the thresholding
    function turns it, entry by entry, into a boolean matrix; and the
    count in the frame's row is the sum of that boolean matrix. *)
Theorem contacts_within_cutoff_steps
    (calc_distance : coordinate -> coordinate -> float)
    (u : Universe) (group_a group_b : AtomGroup) (radius : float) :
  (forall ts,
      length (frame_distances calc_distance group_a group_b ts)
      = length (ix group_a)
      /\ Forall (fun row => length row = length (ix group_b))
           (frame_distances calc_distance group_a group_b ts)
      /\ (forall i j ai bj,
             nth_error (ix group_a) i = Some ai ->
             nth_error (ix group_b) j = Some bj ->
             entry (frame_distances calc_distance group_a group_b ts) i j
             = Some (calc_distance (ts_positions ts ai)
                                   (ts_positions ts bj)))
      /\ (forall i j,
             entry (frame_contact_matrix calc_distance
                      group_a group_b radius ts) i j
             = option_map (fun d => (d <=? radius)%float)
                 (entry (frame_distances calc_distance
                           group_a group_b ts) i j)))
  /\ contacts_within_cutoff (L := reference_library calc_distance)
       u group_a group_b radius
     = Ok (lib_array
             (map (fun ts =>
                     [frame ts;
                      Z.of_nat
                        (count_true
                           (concat
                              (frame_contact_matrix calc_distance
                                 group_a group_b radius ts)))])
                  (trajectory u))).
Proof.
  split.
  - intros ts.
    destruct (frame_distances_shape calc_distance group_a group_b ts)
      as [Hrows Hcols].
    repeat split; try assumption.
    + intros i j ai bj. apply frame_distances_entry.
    + intros i j. apply entry_map_map.
  - apply reference_run.
Qed.

(** C8: the result of [fraction_contacts_between] does not depend on its
    second argument [r0], whatever the library does. *)
Theorem fraction_contacts_between_ignores_r0
    {exn : Type} (L : Library exn)
    (r r0 r0' : list float) (radius min_radius : float) :
  fraction_contacts_between r r0 radius min_radius
  = fraction_contacts_between r r0' radius min_radius.
Proof. reflexivity. Qed.

(** C9: for a non-empty distance array [r], [fraction_contacts_between]
    returns the number of entries of [r] strictly greater than
    [min_radius] and strictly less than [radius], divided by [r.size];
    the divisor is not zero and the value lies in [[0, 1]]. *)
Theorem fraction_contacts_between_value
    (calc_distance : coordinate -> coordinate -> float)
    (r r0 : list float) (radius min_radius : float) :
  r <> [] ->
  fraction_contacts_between (L := reference_library calc_distance)
    r r0 radius min_radius
  = Ok (Finite (exact_fraction r radius min_radius))
  /\ Z.of_nat (length r) <> 0%Z
  /\ (0 <= exact_fraction r radius min_radius <= 1)%Q.
Proof.
  intros Hr.
  assert (Z.of_nat (length r) <> 0%Z) as Hsize
    by (destruct r; [congruence | cbn [length]; lia]).
  repeat split.
  - rewrite reference_fraction. unfold lib_true_divide.
    apply Z.eqb_neq in Hsize. rewrite Hsize. reflexivity.
  - exact Hsize.
  - apply exact_fraction_bounds, Hr.
  - apply exact_fraction_bounds, Hr.
Qed.

Lemma fraction_contacts_between_value_four_distances :
  [3; 2.5; 5; 4]%float <> []
  /\ fraction_contacts_between (L := reference_library euclid)
       [3; 2.5; 5; 4]%float [] 5%float 2.5%float
     = Ok (Finite (exact_fraction [3; 2.5; 5; 4]%float 5%float 2.5%float)).
Proof.
  split.
  - discriminate.
  - apply (fraction_contacts_between_value euclid
             [3; 2.5; 5; 4]%float [] 5%float 2.5%float).
    discriminate.
Defined.

(** C10: every entry of the second column of the array that
    [contacts_within_cutoff] returns lies between [0] and
    [len(group_a) * len(group_b)]. *)
Theorem contact_count_bounds
    (calc_distance : coordinate -> coordinate -> float)
    (u : Universe) (group_a group_b : AtomGroup) (radius : float) :
  exists arr,
    contacts_within_cutoff (L := reference_library calc_distance)
      u group_a group_b radius = Ok arr
    /\ Forall
         (fun count =>
            (0 <= count
             <= Z.of_nat (length (ix group_a)) * Z.of_nat (length (ix group_b)))%Z)
         (column 1 arr).
Proof.
  eexists. split; [apply reference_run|].
  unfold column, lib_array. cbn [data]. rewrite map_map.
  apply Forall_map, Forall_forall. intros ts _. cbn [nth].
  rewrite frame_sum_counts.
  pose proof (contacts_in_frame_le calc_distance group_a group_b radius ts).
  nia.
Qed.

(** ** Further properties *)

(** X1: for every library, when [contacts_within_cutoff] returns an
    array, that array is [np.array] of one row [[ts.frame, n_contacts]]
    per frame, in trajectory order, where [n_contacts] is what
    [contact_matrix(distance_array(group_a.positions, group_b.positions),
    radius).sum()] returned in that frame. *)
Theorem contacts_within_cutoff_returns
    {exn : Type} (L : Library exn)
    (u : Universe) (group_a group_b : AtomGroup) (radius : float)
    (arr : ndarray) :
  contacts_within_cutoff u group_a group_b radius = Ok arr ->
  exists counts,
    Forall2 (frame_count_is group_a group_b radius) (trajectory u) counts
    /\ np_array (table_rows (trajectory u) counts) = Ok arr.
Proof.
  rewrite contacts_within_cutoff_loop. intros H.
  destruct (for_each _ _ _) as [rows|e] eqn:Hloop; cbn [bind] in H;
    [|discriminate].
  apply loop_ok in Hloop as (counts & Hcounts & ->).
  exists counts. split; assumption.
Qed.

Lemma contacts_within_cutoff_returns_two_atoms :
  exists counts,
    Forall2 (frame_count_is (L := reference_library euclid)
               first_atom second_atom 4.5%float)
      (trajectory two_atoms) counts
    /\ np_array (Library := reference_library euclid)
         (table_rows (trajectory two_atoms) counts)
       = Ok {| shape := [2%nat; 2%nat]; data := [[0; 1]; [1; 0]]%Z |}.
Proof.
  apply (contacts_within_cutoff_returns (reference_library euclid)
           two_atoms first_atom second_atom 4.5%float).
  reflexivity.
Defined.

(** X4: for every library, the first frame whose pass raises ends the
    run: when the frames before [ts] are handled without an exception and
    the pass over [ts] raises [e], [contacts_within_cutoff] raises [e],
    whatever frames follow. *)
Theorem contacts_within_cutoff_stops_at_first_raise
    {exn : Type} (L : Library exn)
    (u : Universe) (group_a group_b : AtomGroup) (radius : float)
    (earlier later : list Timestep) (ts : Timestep)
    (rows : list (list Z)) (e : exn) :
  trajectory u = earlier ++ ts :: later ->
  for_each earlier (loop_body group_a group_b radius) [] = Ok rows ->
  loop_body group_a group_b radius rows ts = Raise e ->
  contacts_within_cutoff u group_a group_b radius = Raise e.
Proof.
  intros Hu Hearlier Hts.
  rewrite contacts_within_cutoff_loop, Hu, for_each_app, Hearlier.
  cbn [bind for_each]. rewrite Hts. reflexivity.
Qed.

Lemma contacts_within_cutoff_stops_two_atoms :
  contacts_within_cutoff (L := faulty_library)
    two_atoms first_atom second_atom 4.5%float
  = Raise IOError.
Proof.
  apply (contacts_within_cutoff_stops_at_first_raise faulty_library
           two_atoms first_atom second_atom 4.5%float
           [] [frame_one] frame_zero [] IOError);
    reflexivity.
Defined.

(** X5: under the reference library the array depends on the universe
    only through the frame numbers and the coordinates of the atoms of the
    two groups: two universes whose frames agree on these, frame by frame,
    give the same result. *)
Theorem contacts_within_cutoff_reads_groups_only
    (calc_distance : coordinate -> coordinate -> float)
    (u u' : Universe) (group_a group_b : AtomGroup) (radius : float) :
  Forall2 (frames_agree group_a group_b) (trajectory u) (trajectory u') ->
  contacts_within_cutoff (L := reference_library calc_distance)
    u group_a group_b radius
  = contacts_within_cutoff (L := reference_library calc_distance)
      u' group_a group_b radius.
Proof.
  intros Hagree. rewrite !reference_run. do 2 f_equal.
  apply (map_Forall2 _ (frames_agree group_a group_b)); [|exact Hagree].
  intros ts ts' H.
  destruct (lib_positions_agree group_a group_b ts ts' H) as [Ha Hb].
  destruct H as [Hframe _].
  unfold frame_contact_matrix, frame_distances.
  now rewrite Hframe, Ha, Hb.
Qed.

Lemma contacts_within_cutoff_ignores_bystanders :
  contacts_within_cutoff (L := reference_library euclid)
    two_atoms first_atom second_atom 4.5%float
  = contacts_within_cutoff (L := reference_library euclid)
      two_atoms_bystanders first_atom second_atom 4.5%float.
Proof.
  apply (contacts_within_cutoff_reads_groups_only euclid
           two_atoms two_atoms_bystanders first_atom second_atom 4.5%float).
  repeat constructor; intros i [<-|[<-|[]]]; reflexivity.
Defined.

(** *** Order facts of binary64 comparisons

    [<=?] and [<?] on [float] are specified by [SFcompare] on the decoded
    values ([FloatAxioms.leb_spec], [FloatAxioms.ltb_spec]).  A [nan]
    compares with nothing, so every fact below has its comparisons as
    hypotheses. *)

Section FloatOrder.

Import SpecFloat FloatOps.

Ltac compare_cases :=
  repeat match goal with
         | H : context [Z.compare ?a ?b] |- _ =>
             destruct (Z.compare_spec a b); try subst
         | |- context [Z.compare ?a ?b] =>
             destruct (Z.compare_spec a b); try subst
         | H : context [Pos.compare ?a ?b] |- _ =>
             destruct (Pos.compare_spec a b); try subst
         | |- context [Pos.compare ?a ?b] =>
             destruct (Pos.compare_spec a b); try subst
         end.

Lemma SFcompare_trans (x y z : spec_float) :
  cmp_le (SFcompare x y) = true -> cmp_le (SFcompare y z) = true ->
  cmp_le (SFcompare x z) = true
  /\ (cmp_lt (SFcompare x y) = true \/ cmp_lt (SFcompare y z) = true ->
      cmp_lt (SFcompare x z) = true).
Proof.
  unfold SFcompare.
  change (Pos.compare_cont Eq) with Pos.compare.
  destruct x as [sx|sx| |sx mx ex], y as [sy|sy| |sy my ey],
           z as [sz|sz| |sz mz ez];
    try destruct sx; try destruct sy; try destruct sz;
    cbn [cmp_le cmp_lt]; intros Hxy Hyz;
    try discriminate; (split; [|intros [H|H]]);
    try discriminate; try reflexivity.
  all: compare_cases; cbn [CompOpp cmp_le cmp_lt] in *;
    try discriminate; try reflexivity; try lia.
Qed.

Lemma SFcompare_irrefl (x : spec_float) : cmp_lt (SFcompare x x) = false.
Proof.
  unfold SFcompare.
  change (Pos.compare_cont Eq) with Pos.compare.
  destruct x as [s|s| |s m e]; try destruct s; cbn [cmp_lt];
    try reflexivity.
  all: rewrite Z.compare_refl, Pos.compare_refl; reflexivity.
Qed.

Lemma leb_cmp (a b : float) :
  (a <=? b)%float = cmp_le (SFcompare (Prim2SF a) (Prim2SF b)).
Proof.
  rewrite FloatAxioms.leb_spec. unfold SFleb.
  now destruct (SFcompare _ _) as [[]|].
Qed.

Lemma ltb_cmp (a b : float) :
  (a <? b)%float = cmp_lt (SFcompare (Prim2SF a) (Prim2SF b)).
Proof.
  rewrite FloatAxioms.ltb_spec. unfold SFltb.
  now destruct (SFcompare _ _) as [[]|].
Qed.

Lemma cmp_lt_le (c : option comparison) : cmp_lt c = true -> cmp_le c = true.
Proof. now destruct c as [[]|]. Qed.

Lemma float_leb_trans (a b c : float) :
  (a <=? b)%float = true -> (b <=? c)%float = true -> (a <=? c)%float = true.
Proof.
  rewrite !leb_cmp. intros Hab Hbc.
  now destruct (SFcompare_trans _ _ _ Hab Hbc).
Qed.

Lemma float_ltb_leb_trans (a b c : float) :
  (a <? b)%float = true -> (b <=? c)%float = true -> (a <? c)%float = true.
Proof.
  rewrite leb_cmp, !ltb_cmp. intros Hab Hbc.
  destruct (SFcompare_trans _ _ _ (cmp_lt_le _ Hab) Hbc) as [_ H].
  apply H. now left.
Qed.

Lemma float_leb_ltb_trans (a b c : float) :
  (a <=? b)%float = true -> (b <? c)%float = true -> (a <? c)%float = true.
Proof.
  rewrite leb_cmp, !ltb_cmp. intros Hab Hbc.
  destruct (SFcompare_trans _ _ _ Hab (cmp_lt_le _ Hbc)) as [_ H].
  apply H. now right.
Qed.

Lemma float_ltb_asym (a b : float) :
  (a <? b)%float = true -> (b <? a)%float = false.
Proof.
  rewrite !ltb_cmp. intros Hab.
  destruct (cmp_lt (SFcompare (Prim2SF b) (Prim2SF a))) eqn:Hba;
    [|reflexivity].
  destruct (SFcompare_trans _ _ _ (cmp_lt_le _ Hab) (cmp_lt_le _ Hba))
    as [_ H].
  rewrite SFcompare_irrefl in H. symmetry. apply H. now left.
Qed.

End FloatOrder.

(** *** Counting pairs *)

Section Counting.

Context {A B : Type}.

Lemma filter_length_mono {C : Type} (p q : C -> bool) (l : list C) :
  (forall x, In x l -> p x = true -> q x = true) ->
  (length (filter p l) <= length (filter q l))%nat.
Proof.
  induction l as [|x l IH]; intros H; cbn [filter length]; [lia|].
  assert (length (filter p l) <= length (filter q l))%nat as Hl
    by (apply IH; intros y Hy; apply H; now right).
  destruct (p x) eqn:Hp.
  - rewrite (H x (or_introl eq_refl) Hp). cbn [length]. lia.
  - destruct (q x); cbn [length]; lia.
Qed.

Lemma filter_none {C : Type} (p : C -> bool) (l : list C) :
  (forall x, In x l -> p x = false) -> filter p l = [].
Proof.
  induction l as [|x l IH]; intros H; cbn [filter]; [reflexivity|].
  rewrite (H x (or_introl eq_refl)). apply IH. intros y Hy. apply H. now right.
Qed.

Lemma list_prod_nil_r (l : list A) : list_prod l (@nil B) = [].
Proof. induction l as [|x l IH]; cbn [list_prod map app]; auto. Qed.

Lemma list_prod_app_l (l1 l2 : list A) (l' : list B) :
  list_prod (l1 ++ l2) l' = list_prod l1 l' ++ list_prod l2 l'.
Proof.
  induction l1 as [|x l1 IH]; cbn [list_prod app]; [reflexivity|].
  now rewrite IH, app_assoc.
Qed.

Lemma count_prod_app_r (f : A * B -> bool) (l : list A) (l1 l2 : list B) :
  length (filter f (list_prod l (l1 ++ l2)))
  = (length (filter f (list_prod l l1))
     + length (filter f (list_prod l l2)))%nat.
Proof.
  induction l as [|x l IH]; cbn [list_prod]; [reflexivity|].
  rewrite map_app, !filter_app, !length_app, IH. lia.
Qed.

Lemma count_prod_cons_r (f : A * B -> bool) (l : list A) (y : B)
    (l' : list B) :
  length (filter f (list_prod l (y :: l')))
  = (length (filter f (map (fun x => (x, y)) l))
     + length (filter f (list_prod l l')))%nat.
Proof.
  induction l as [|x l IH]; cbn [list_prod map]; [reflexivity|].
  rewrite !filter_app, !length_app, IH.
  cbn [filter]. destruct (f (x, y)); cbn [length]; lia.
Qed.

End Counting.

(** The pairs of [l] and [l'] that satisfy [f] are as many as the pairs
    of [l'] and [l] that satisfy it with the components exchanged. *)
Lemma count_prod_swap {A B : Type} (f : A * B -> bool) (l : list A)
    (l' : list B) :
  length (filter f (list_prod l l'))
  = length (filter (fun p => f (snd p, fst p)) (list_prod l' l)).
Proof.
  induction l as [|x l IH]; cbn [list_prod].
  - now rewrite list_prod_nil_r.
  - rewrite filter_app, length_app, IH, count_prod_cons_r.
    rewrite !filter_map_length. reflexivity.
Qed.

(** *** More facts about the reference library *)

Section MoreReferenceFacts.

Variable calc_distance : coordinate -> coordinate -> float.

(** The second column of a run, frame by frame. *)
Lemma reference_column (u : Universe) (group_a group_b : AtomGroup)
    (radius : float) :
  exists arr,
    contacts_within_cutoff (L := reference_library calc_distance)
      u group_a group_b radius = Ok arr
    /\ column 1 arr
       = map (fun ts =>
                Z.of_nat
                  (length (contacts_in_frame calc_distance ts
                             group_a group_b radius)))
             (trajectory u).
Proof.
  eexists. split; [apply reference_run|].
  unfold column, lib_array. cbn [data]. rewrite map_map.
  apply map_ext. intros ts. cbn [nth]. apply frame_sum_counts.
Qed.

Lemma add_columns_map {C : Type} (f g : C -> Z) (l : list C) :
  add_columns (map f l) (map g l) = map (fun x => (f x + g x)%Z) l.
Proof.
  unfold add_columns. now rewrite combine_map_map, map_map.
Qed.

Lemma Forall2_map_same {C D : Type} (R : D -> D -> Prop) (f g : C -> D)
    (l : list C) :
  (forall x, R (f x) (g x)) -> Forall2 R (map f l) (map g l).
Proof.
  intros H. induction l as [|x l IH]; cbn [map]; constructor; auto.
Qed.

Lemma contacts_in_frame_swap (ts : Timestep) (group_a group_b : AtomGroup)
    (radius : float) :
  (forall i j, In i (ix group_a) -> In j (ix group_b) ->
               calc_distance (ts_positions ts i) (ts_positions ts j)
               = calc_distance (ts_positions ts j) (ts_positions ts i)) ->
  length (contacts_in_frame calc_distance ts group_a group_b radius)
  = length (contacts_in_frame calc_distance ts group_b group_a radius).
Proof.
  intros Hsym. unfold contacts_in_frame.
  rewrite count_prod_swap. cbn [fst snd].
  f_equal. apply filter_ext_in. intros [j i] Hin.
  apply in_prod_iff in Hin as [Hj Hi]. cbn [fst snd].
  now rewrite (Hsym i j Hi Hj).
Qed.

Lemma contacts_in_frame_mono (ts : Timestep) (group_a group_b : AtomGroup)
    (radius radius' : float) :
  (radius <=? radius')%float = true ->
  (length (contacts_in_frame calc_distance ts group_a group_b radius)
   <= length (contacts_in_frame calc_distance ts group_a group_b radius'))%nat.
Proof.
  intros Hle. unfold contacts_in_frame.
  apply filter_length_mono. intros p _ Hp.
  exact (float_leb_trans _ _ _ Hp Hle).
Qed.

Lemma contacts_in_frame_split_a (ts : Timestep)
    (group_a a1 a2 group_b : AtomGroup) (radius : float) :
  ix group_a = ix a1 ++ ix a2 ->
  length (contacts_in_frame calc_distance ts group_a group_b radius)
  = (length (contacts_in_frame calc_distance ts a1 group_b radius)
     + length (contacts_in_frame calc_distance ts a2 group_b radius))%nat.
Proof.
  intros Ha. unfold contacts_in_frame.
  now rewrite Ha, list_prod_app_l, filter_app, length_app.
Qed.

Lemma contacts_in_frame_split_b (ts : Timestep)
    (group_a group_b b1 b2 : AtomGroup) (radius : float) :
  ix group_b = ix b1 ++ ix b2 ->
  length (contacts_in_frame calc_distance ts group_a group_b radius)
  = (length (contacts_in_frame calc_distance ts group_a b1 radius)
     + length (contacts_in_frame calc_distance ts group_a b2 radius))%nat.
Proof.
  intros Hb. unfold contacts_in_frame.
  now rewrite Hb, count_prod_app_r.
Qed.


Lemma entries_between_mono (r : list float)
    (radius min_radius radius' min_radius' : float) :
  (radius <=? radius')%float = true ->
  (min_radius' <=? min_radius)%float = true ->
  (length (entries_between r radius min_radius)
   <= length (entries_between r radius' min_radius'))%nat.
Proof.
  intros Hr Hm. unfold entries_between.
  apply filter_length_mono. intros d _ Hd.
  apply andb_true_iff in Hd as [Hlo Hhi]. apply andb_true_iff. split.
  - exact (float_leb_ltb_trans _ _ _ Hm Hlo).
  - exact (float_ltb_leb_trans _ _ _ Hhi Hr).
Qed.

Lemma entries_between_empty_window (r : list float)
    (radius min_radius : float) :
  (radius <=? min_radius)%float = true ->
  entries_between r radius min_radius = [].
Proof.
  intros Hw. unfold entries_between. apply filter_none. intros d _.
  destruct (min_radius <? d)%float eqn:Hlo; [|reflexivity].
  destruct (d <? radius)%float eqn:Hhi; [|reflexivity].
  pose proof (float_ltb_leb_trans _ _ _ Hhi Hw) as Hdm.
  apply float_ltb_asym in Hdm. congruence.
Qed.

End MoreReferenceFacts.

(** *** Runs that succeed, for every library *)

Section Completeness.

Context {exn : Type} {L : Library exn}.

Lemma loop_body_complete (group_a group_b : AtomGroup) (radius : float)
    (timeseries : list (list Z)) (ts : Timestep) (n_contacts : Z) :
  frame_count_is group_a group_b radius ts n_contacts ->
  loop_body group_a group_b radius timeseries ts
  = Ok (timeseries ++ [[frame ts; n_contacts]]).
Proof.
  intros (pos_a & pos_b & dist & cm & Ha & Hb & Hd & Hc & Hs).
  unfold loop_body. rewrite Ha. cbn [bind]. rewrite Hb. cbn [bind].
  rewrite Hd. cbn [bind]. rewrite Hc. cbn [bind]. rewrite Hs. reflexivity.
Qed.

Lemma loop_complete (group_a group_b : AtomGroup) (radius : float)
    (frames : list Timestep) (counts : list Z) (acc : list (list Z)) :
  Forall2 (frame_count_is group_a group_b radius) frames counts ->
  for_each frames (loop_body group_a group_b radius) acc
  = Ok (acc ++ table_rows frames counts).
Proof.
  intros H. revert acc.
  induction H as [|ts c frames counts Hc _ IH]; intros acc;
    cbn [for_each]; unfold table_rows; cbn [combine map fst snd].
  - now rewrite app_nil_r.
  - rewrite (loop_body_complete _ _ _ _ _ _ Hc). cbn [bind].
    rewrite IH. unfold table_rows. now rewrite <- app_assoc.
Qed.

End Completeness.

(** X7: exchanging the two groups does not change the result, provided
    the distance the kernel reports for each pair of an atom of [group_a]
    and an atom of [group_b] does not depend on the order of the two
    atoms.  (The notebook passes [acidic, basic] where its text speaks of
    basic-acidic pairs.) *)
Theorem contacts_within_cutoff_swap_groups
    (calc_distance : coordinate -> coordinate -> float)
    (u : Universe) (group_a group_b : AtomGroup) (radius : float) :
  (forall ts i j,
      In ts (trajectory u) -> In i (ix group_a) -> In j (ix group_b) ->
      calc_distance (ts_positions ts i) (ts_positions ts j)
      = calc_distance (ts_positions ts j) (ts_positions ts i)) ->
  contacts_within_cutoff (L := reference_library calc_distance)
    u group_a group_b radius
  = contacts_within_cutoff (L := reference_library calc_distance)
      u group_b group_a radius.
Proof.
  intros Hsym. rewrite !reference_run. do 2 f_equal.
  apply map_ext_in. intros ts Hts.
  rewrite !frame_sum_counts.
  rewrite (contacts_in_frame_swap calc_distance ts group_a group_b radius);
    [reflexivity|].
  intros i j. apply Hsym, Hts.
Qed.

Lemma contacts_within_cutoff_swap_two_atoms :
  contacts_within_cutoff (L := reference_library euclid)
    two_atoms first_atom second_atom 4.5%float
  = contacts_within_cutoff (L := reference_library euclid)
      two_atoms second_atom first_atom 4.5%float.
Proof.
  apply (contacts_within_cutoff_swap_groups euclid
           two_atoms first_atom second_atom 4.5%float).
  intros ts i j [<-|[<-|[]]] [<-|[]] [<-|[]]; reflexivity.
Defined.

(** X8: a larger radius never lowers a count: when [radius <= radius']
    (as binary64 values), every frame's count for [radius] is at most
    the frame's count for [radius']. *)
Theorem contacts_within_cutoff_monotone_in_radius
    (calc_distance : coordinate -> coordinate -> float)
    (u : Universe) (group_a group_b : AtomGroup) (radius radius' : float) :
  (radius <=? radius')%float = true ->
  exists arr arr',
    contacts_within_cutoff (L := reference_library calc_distance)
      u group_a group_b radius = Ok arr
    /\ contacts_within_cutoff (L := reference_library calc_distance)
         u group_a group_b radius' = Ok arr'
    /\ Forall2 Z.le (column 1 arr) (column 1 arr').
Proof.
  intros Hle.
  destruct (reference_column calc_distance u group_a group_b radius)
    as (arr & Hrun & Hcol).
  destruct (reference_column calc_distance u group_a group_b radius')
    as (arr' & Hrun' & Hcol').
  exists arr, arr'. repeat split; try assumption.
  rewrite Hcol, Hcol'. apply Forall2_map_same. intros ts.
  apply Nat2Z.inj_le, contacts_in_frame_mono, Hle.
Qed.

Lemma contacts_within_cutoff_monotone_two_atoms :
  exists arr arr',
    contacts_within_cutoff (L := reference_library euclid)
      two_atoms first_atom second_atom 4.5%float = Ok arr
    /\ contacts_within_cutoff (L := reference_library euclid)
         two_atoms first_atom second_atom 6%float = Ok arr'
    /\ Forall2 Z.le (column 1 arr) (column 1 arr').
Proof.
  apply (contacts_within_cutoff_monotone_in_radius euclid
           two_atoms first_atom second_atom 4.5%float 6%float).
  reflexivity.
Defined.

(** X9: counts add up over a split of either group: when [group_a] is
    [a1] followed by [a2], every frame's count for [group_a] is the sum
    of the counts for [a1] and for [a2] (against the same [group_b]); and
    likewise when [group_b] is [b1] followed by [b2]. *)
Theorem contacts_within_cutoff_additive
    (calc_distance : coordinate -> coordinate -> float)
    (u : Universe) (group_a a1 a2 group_b b1 b2 : AtomGroup)
    (radius : float) :
  ix group_a = ix a1 ++ ix a2 ->
  ix group_b = ix b1 ++ ix b2 ->
  exists arr arr_a1 arr_a2 arr_b1 arr_b2,
    contacts_within_cutoff (L := reference_library calc_distance)
      u group_a group_b radius = Ok arr
    /\ contacts_within_cutoff (L := reference_library calc_distance)
         u a1 group_b radius = Ok arr_a1
    /\ contacts_within_cutoff (L := reference_library calc_distance)
         u a2 group_b radius = Ok arr_a2
    /\ contacts_within_cutoff (L := reference_library calc_distance)
         u group_a b1 radius = Ok arr_b1
    /\ contacts_within_cutoff (L := reference_library calc_distance)
         u group_a b2 radius = Ok arr_b2
    /\ column 1 arr = add_columns (column 1 arr_a1) (column 1 arr_a2)
    /\ column 1 arr = add_columns (column 1 arr_b1) (column 1 arr_b2).
Proof.
  intros Ha Hb.
  destruct (reference_column calc_distance u group_a group_b radius)
    as (arr & Hrun & Hcol).
  destruct (reference_column calc_distance u a1 group_b radius)
    as (arr_a1 & Hrun_a1 & Hcol_a1).
  destruct (reference_column calc_distance u a2 group_b radius)
    as (arr_a2 & Hrun_a2 & Hcol_a2).
  destruct (reference_column calc_distance u group_a b1 radius)
    as (arr_b1 & Hrun_b1 & Hcol_b1).
  destruct (reference_column calc_distance u group_a b2 radius)
    as (arr_b2 & Hrun_b2 & Hcol_b2).
  exists arr, arr_a1, arr_a2, arr_b1, arr_b2.
  repeat split; try assumption.
  - rewrite Hcol, Hcol_a1, Hcol_a2, add_columns_map.
    apply map_ext. intros ts.
    rewrite (contacts_in_frame_split_a calc_distance ts
               group_a a1 a2 group_b radius Ha).
    apply Nat2Z.inj_add.
  - rewrite Hcol, Hcol_b1, Hcol_b2, add_columns_map.
    apply map_ext. intros ts.
    rewrite (contacts_in_frame_split_b calc_distance ts
               group_a group_b b1 b2 radius Hb).
    apply Nat2Z.inj_add.
Qed.

Lemma contacts_within_cutoff_additive_two_atoms :
  exists arr arr_a1 arr_a2 arr_b1 arr_b2,
    contacts_within_cutoff (L := reference_library euclid)
      two_atoms both_atoms both_atoms 4.5%float = Ok arr
    /\ contacts_within_cutoff (L := reference_library euclid)
         two_atoms first_atom both_atoms 4.5%float = Ok arr_a1
    /\ contacts_within_cutoff (L := reference_library euclid)
         two_atoms second_atom both_atoms 4.5%float = Ok arr_a2
    /\ contacts_within_cutoff (L := reference_library euclid)
         two_atoms both_atoms first_atom 4.5%float = Ok arr_b1
    /\ contacts_within_cutoff (L := reference_library euclid)
         two_atoms both_atoms second_atom 4.5%float = Ok arr_b2
    /\ column 1 arr = add_columns (column 1 arr_a1) (column 1 arr_a2)
    /\ column 1 arr = add_columns (column 1 arr_b1) (column 1 arr_b2).
Proof.
  apply (contacts_within_cutoff_additive euclid two_atoms
           both_atoms first_atom second_atom
           both_atoms first_atom second_atom 4.5%float);
    reflexivity.
Defined.



(** X11: widening the window never lowers the fraction: for a non-empty
    [r], when [radius <= radius'] and [min_radius' <= min_radius] (as
    binary64 values), the fraction for [(radius, min_radius)] is at most
    the fraction for [(radius', min_radius')]. *)
Theorem fraction_contacts_between_monotone
    (calc_distance : coordinate -> coordinate -> float)
    (r r0 : list float) (radius min_radius radius' min_radius' : float) :
  r <> [] ->
  (radius <=? radius')%float = true ->
  (min_radius' <=? min_radius)%float = true ->
  fraction_contacts_between (L := reference_library calc_distance)
    r r0 radius min_radius
  = Ok (Finite (exact_fraction r radius min_radius))
  /\ fraction_contacts_between (L := reference_library calc_distance)
       r r0 radius' min_radius'
     = Ok (Finite (exact_fraction r radius' min_radius'))
  /\ (exact_fraction r radius min_radius
      <= exact_fraction r radius' min_radius')%Q.
Proof.
  intros Hr Hradius Hmin.
  assert ((Z.of_nat (length r) =? 0)%Z = false) as Hsize
    by (apply Z.eqb_neq; destruct r; [congruence | cbn [length]; lia]).
  repeat split.
  - rewrite reference_fraction. unfold lib_true_divide.
    now rewrite Hsize.
  - rewrite reference_fraction. unfold lib_true_divide.
    now rewrite Hsize.
  - unfold exact_fraction, Qdiv.
    apply Qmult_le_compat_r.
    + rewrite <- Zle_Qle. apply Nat2Z.inj_le.
      now apply entries_between_mono.
    + apply Qinv_le_0_compat.
      unfold Qle, inject_Z; cbn [Qnum Qden]. lia.
Qed.

Lemma fraction_contacts_between_monotone_four_distances :
  fraction_contacts_between (L := reference_library euclid)
    [3; 2.5; 5; 4]%float [] 4%float 3%float
  = Ok (Finite (exact_fraction [3; 2.5; 5; 4]%float 4%float 3%float))
  /\ fraction_contacts_between (L := reference_library euclid)
       [3; 2.5; 5; 4]%float [] 5%float 2.5%float
     = Ok (Finite (exact_fraction [3; 2.5; 5; 4]%float 5%float 2.5%float))
  /\ (exact_fraction [3; 2.5; 5; 4]%float 4%float 3%float
      <= exact_fraction [3; 2.5; 5; 4]%float 5%float 2.5%float)%Q.
Proof.
  apply (fraction_contacts_between_monotone euclid
           [3; 2.5; 5; 4]%float [] 4%float 3%float 5%float 2.5%float).
  - discriminate.
  - reflexivity.
  - reflexivity.
Defined.

(** X13: an empty window counts nothing: when [radius <= min_radius] (as
    binary64 values) no entry of [r] is in contact, and
    [fraction_contacts_between] returns [0 / r.size]. *)
Theorem fraction_contacts_between_empty_window
    (calc_distance : coordinate -> coordinate -> float)
    (r r0 : list float) (radius min_radius : float) :
  (radius <=? min_radius)%float = true ->
  entries_between r radius min_radius = []
  /\ fraction_contacts_between (L := reference_library calc_distance)
       r r0 radius min_radius
     = Ok (lib_true_divide 0 (Z.of_nat (length r))).
Proof.
  intros Hw.
  pose proof (entries_between_empty_window r radius min_radius Hw) as He.
  split; [exact He|].
  rewrite reference_fraction, He. reflexivity.
Qed.

Lemma fraction_contacts_between_empty_window_four_distances :
  entries_between [3; 2.5; 5; 4]%float 2.5%float 5%float = []
  /\ fraction_contacts_between (L := reference_library euclid)
       [3; 2.5; 5; 4]%float [] 2.5%float 5%float
     = Ok (Finite (inject_Z 0 / inject_Z 4)%Q).
Proof.
  apply (fraction_contacts_between_empty_window euclid
           [3; 2.5; 5; 4]%float [] 2.5%float 5%float).
  reflexivity.
Defined.

(** ** Runs: the reader, the current frame and the reads *)

Section RunFacts.

Context {exn : Type} {L : Library exn} {R : Reader exn}.

Variables group_a group_b : AtomGroup.
Variable radius : float.

(** With the trajectory at [ts], a pass returns or raises what the body
    of the loop does with [ts] passed by hand. *)
Lemma pass_value (timeseries : list (list Z)) (ts : Timestep) (w : world) :
  current w = ts ->
  fst (pass group_a group_b radius timeseries ts w)
  = loop_body group_a group_b radius timeseries ts.
Proof.
  intros <-. unfold pass, loop_body, bind_st, read_positions, call, ret_st.
  cbn [current reads].
  destruct (positions group_a (current w)) as [pos_a|]; cbn [bind fst];
    [|reflexivity].
  destruct (positions group_b (current w)) as [pos_b|]; cbn [bind fst];
    [|reflexivity].
  destruct (distance_array pos_a pos_b) as [dist|]; cbn [bind fst];
    [|reflexivity].
  destruct (contact_matrix dist radius) as [cm|]; cbn [bind fst];
    [|reflexivity].
  destruct (matrix_sum cm) as [n|]; reflexivity.
Qed.


(** One turn of the loop: the reader makes [ts] current, the body runs,
    and the loop goes on from the state the body leaves. *)
Lemma for_each_frame_cons {S : Type} (ts : Timestep) (frames : list Timestep)
    (body : S -> Timestep -> @stateful exn S) (s : S) (w : world) :
  for_each_frame (ts :: frames) body s w
  = match body s ts {| current := ts; reads := reads w |} with
    | (Ok s', w') => for_each_frame frames body s' w'
    | (Raise e, w') => (Raise e, w')
    end.
Proof. reflexivity. Qed.

(** The loop returns or raises what the loop with the frame passed by
    hand does, whatever frame the trajectory was at before. *)
Lemma loop_value (frames : list Timestep) (acc : list (list Z)) (w : world) :
  fst (for_each_frame frames (pass group_a group_b radius) acc w)
  = for_each frames (loop_body group_a group_b radius) acc.
Proof.
  revert acc w. induction frames as [|ts frames IH]; intros acc w.
  - reflexivity.
  - rewrite for_each_frame_cons. cbn [for_each].
    pose proof (pass_value acc ts {| current := ts; reads := reads w |}
                  eq_refl) as Hv.
    destruct (pass group_a group_b radius acc ts
                {| current := ts; reads := reads w |}) as [[rows|e] w'];
      cbn [fst] in Hv; rewrite <- Hv; cbn [bind fst].
    + apply IH.
    + reflexivity.
Qed.


(** What a run returns or raises, whatever frame the trajectory was at
    before: the loop over the frames the reader hands out, then the
    reader's exception if it has one, else [np.array] of the rows. *)
Lemma run_value (u : Universe) (w : world) :
  fst (contacts_within_cutoff_run u group_a group_b radius w)
  = (timeseries <-
       for_each (frames_read (iterate u))
         (loop_body group_a group_b radius) [] ;;
     match read_error (iterate u) with
     | Some e => Raise e
     | None => np_array timeseries
     end).
Proof.
  unfold contacts_within_cutoff_run.
  change (fun timeseries ts => _)
    with (pass group_a group_b radius).
  unfold bind_st at 1.
  pose proof (loop_value (frames_read (iterate u)) [] w) as Hv.
  destruct (for_each_frame _ _ _ w) as [[rows|e] w']; cbn [fst] in Hv;
    rewrite <- Hv; cbn [bind]; [|reflexivity].
  destruct (read_error (iterate u)); reflexivity.
Qed.


(** On a reader that hands out every frame and reaches the end, a run
    returns or raises what [contacts_within_cutoff] does. *)
Lemma run_without_fault (u : Universe) (w : world) :
  iterate u = {| frames_read := trajectory u; read_error := None |} ->
  fst (contacts_within_cutoff_run u group_a group_b radius w)
  = contacts_within_cutoff u group_a group_b radius.
Proof.
  intros Hit. rewrite run_value, Hit. reflexivity.
Qed.

(** The body of the loop raises [e] exactly when one of its calls does,
    the calls before it having returned. *)
Lemma loop_body_raises (timeseries : list (list Z)) (ts : Timestep)
    (e : exn) :
  loop_body group_a group_b radius timeseries ts = Raise e
  <-> pass_raises group_a group_b radius ts e.
Proof.
  unfold loop_body, pass_raises. split.
  - intros H.
    destruct (positions group_a ts) as [pos_a|] eqn:Ha; cbn [bind] in H;
      [right; exists pos_a; split; [reflexivity|] | left; congruence].
    destruct (positions group_b ts) as [pos_b|] eqn:Hb; cbn [bind] in H;
      [right; exists pos_b; split; [reflexivity|] | left; congruence].
    destruct (distance_array pos_a pos_b) as [dist|] eqn:Hd;
      cbn [bind] in H;
      [right; exists dist; split; [reflexivity|] | left; congruence].
    destruct (contact_matrix dist radius) as [cm|] eqn:Hc; cbn [bind] in H;
      [right; exists cm; split; [reflexivity|] | left; congruence].
    destruct (matrix_sum cm) as [n|] eqn:Hs; cbn [bind] in H;
      [discriminate | congruence].
  - intros [Ha | (pos_a & Ha & [Hb | (pos_b & Hb & [Hd | (dist & Hd &
             [Hc | (cm & Hc & Hs)])])])];
      rewrite Ha; cbn [bind]; try reflexivity;
      rewrite Hb; cbn [bind]; try reflexivity;
      rewrite Hd; cbn [bind]; try reflexivity;
      rewrite Hc; cbn [bind]; try reflexivity;
      rewrite Hs; reflexivity.
Qed.

(** A loop that raises does so in the pass over one frame, the passes
    over the frames before it having returned their counts. *)
Lemma loop_first_raise (frames : list Timestep) (acc : list (list Z))
    (e : exn) :
  for_each frames (loop_body group_a group_b radius) acc = Raise e ->
  exists earlier ts later counts,
    frames = earlier ++ ts :: later
    /\ Forall2 (frame_count_is group_a group_b radius) earlier counts
    /\ pass_raises group_a group_b radius ts e.
Proof.
  revert acc. induction frames as [|ts frames IH]; intros acc H;
    cbn [for_each] in H; [discriminate|].
  destruct (loop_body group_a group_b radius acc ts) as [rows|e'] eqn:Hb;
    cbn [bind] in H.
  - apply loop_body_ok in Hb as (c & Hc & ->).
    apply IH in H as (earlier & ts' & later & counts & -> & Hcounts & Hp).
    exists (ts :: earlier), ts', later, (c :: counts).
    repeat split; [now constructor | exact Hp].
  - injection H as ->. apply loop_body_raises in Hb.
    exists [], ts, frames, []. repeat split; [constructor | exact Hb].
Qed.

Lemma loop_raise_at (earlier later : list Timestep) (ts : Timestep)
    (counts : list Z) (acc : list (list Z)) (e : exn) :
  Forall2 (frame_count_is group_a group_b radius) earlier counts ->
  pass_raises group_a group_b radius ts e ->
  for_each (earlier ++ ts :: later) (loop_body group_a group_b radius) acc
  = Raise e.
Proof.
  intros Hcounts Hp.
  rewrite for_each_app, (loop_complete _ _ _ _ _ _ Hcounts).
  cbn [bind for_each].
  apply (loop_body_raises (acc ++ table_rows earlier counts)) in Hp.
  now rewrite Hp.
Qed.

(** A run raises [e] exactly where [run_raises] says. *)
Lemma run_raises_iff (u : Universe) (w : world) (e : exn) :
  fst (contacts_within_cutoff_run u group_a group_b radius w) = Raise e
  <-> run_raises u group_a group_b radius e.
Proof.
  rewrite run_value. split.
  - intros H.
    destruct (for_each _ _ _) as [rows|e'] eqn:Hloop; cbn [bind] in H.
    + apply loop_ok in Hloop as (counts & Hcounts & ->). cbn [app] in H.
      destruct (read_error (iterate u)) as [e'|] eqn:Hread.
      * injection H as ->. now apply (raised_by_reader _ _ _ _ _ counts).
      * now apply (raised_by_np_array _ _ _ _ _ counts).
    + injection H as ->.
      apply loop_first_raise in Hloop
        as (earlier & ts & later & counts & Hfr & Hcounts & Hp).
      exact (raised_in_pass _ _ _ _ _ _ _ _ _ Hfr Hcounts Hp).
  - intros [earlier ts later counts Hfr Hcounts Hp
           | counts Hcounts Hread | counts Hcounts Hread Harr].
    + rewrite Hfr, (loop_raise_at _ _ _ _ _ _ Hcounts Hp). reflexivity.
    + rewrite (loop_complete _ _ _ _ _ _ Hcounts), Hread. reflexivity.
    + rewrite (loop_complete _ _ _ _ _ _ Hcounts), Hread. exact Harr.
Qed.

(** A run returns [arr] exactly when the reader reaches the end, every
    pass returns its count, and [np.array] returns [arr] for the rows. *)
Lemma run_returns_iff (u : Universe) (w : world) (arr : ndarray) :
  fst (contacts_within_cutoff_run u group_a group_b radius w) = Ok arr
  <-> read_error (iterate u) = None
      /\ exists counts,
           Forall2 (frame_count_is group_a group_b radius)
             (frames_read (iterate u)) counts
           /\ np_array (table_rows (frames_read (iterate u)) counts)
              = Ok arr.
Proof.
  rewrite run_value. split.
  - intros H.
    destruct (for_each _ _ _) as [rows|e'] eqn:Hloop; cbn [bind] in H;
      [|discriminate].
    apply loop_ok in Hloop as (counts & Hcounts & ->). cbn [app] in H.
    destruct (read_error (iterate u)); [discriminate|].
    split; [reflexivity|]. now exists counts.
  - intros (Hread & counts & Hcounts & Harr).
    rewrite (loop_complete _ _ _ _ _ _ Hcounts), Hread. exact Harr.
Qed.

End RunFacts.

Section FractionFacts.

Context {exn : Type} {L : Library exn}.

Lemma fraction_raises_iff (r r0 : list float) (radius min_radius : float)
    (e : exn) :
  fraction_contacts_between r r0 radius min_radius = Raise e
  <-> fraction_raises r radius min_radius e.
Proof.
  unfold fraction_contacts_between, fraction_raises. split.
  - intros H.
    destruct (array_lt r radius) as [below|] eqn:H1; cbn [bind] in H;
      [right; exists below; split; [reflexivity|] | left; congruence].
    destruct (array_gt r min_radius) as [above|] eqn:H2; cbn [bind] in H;
      [right; exists above; split; [reflexivity|] | left; congruence].
    destruct (array_and below above) as [both|] eqn:H3; cbn [bind] in H;
      [right; exists both; split; [reflexivity|] | left; congruence].
    destruct (array_sum both) as [total|] eqn:H4; cbn [bind] in H;
      [right; exists total; split; [reflexivity|] | left; congruence].
    destruct (array_size r) as [size|] eqn:H5; cbn [bind] in H;
      [right; exists size; split; [reflexivity|] | left; congruence].
    exact H.
  - intros [H1 | (below & H1 & [H2 | (above & H2 & [H3 | (both & H3 &
             [H4 | (total & H4 & [H5 | (size & H5 & H6)])])])])];
      rewrite H1; cbn [bind]; try reflexivity;
      rewrite H2; cbn [bind]; try reflexivity;
      rewrite H3; cbn [bind]; try reflexivity;
      rewrite H4; cbn [bind]; try reflexivity;
      rewrite H5; cbn [bind]; try reflexivity;
      exact H6.
Qed.

End FractionFacts.

(** ** The claims about universes, exceptions and runs *)

(** C1: for every universe the library builds, with its [n] frames, and
    every pair of atom groups, [contacts_within_cutoff] returns an array
    of shape [(n, 2)] with one row per frame, in iteration order; the
    first entry of a row is the frame's number [ts.frame], the second the
    number of contacts of that frame. *)
Theorem contacts_within_cutoff_shape
    (calc_distance : coordinate -> coordinate -> float)
    (u : LoadedUniverse) (group_a group_b : AtomGroup) (radius : float) :
  contacts_within_cutoff (L := reference_library calc_distance)
    (universe_of u) group_a group_b radius
  = Ok {| shape := [length (trajectory (universe_of u)); 2%nat];
          data :=
            map (fun ts =>
                   [frame ts;
                    Z.of_nat
                      (length (contacts_in_frame calc_distance ts
                                 group_a group_b radius))])
                (trajectory (universe_of u)) |}.
Proof.
  apply contacts_within_cutoff_table. unfold universe_of. cbn [trajectory].
  discriminate.
Qed.

(** C6: no exception originates in the notebook code.  Whatever the
    library and the reader do, a run of [contacts_within_cutoff] raises
    [e] exactly when one of the library calls the run makes raises [e]:
    a call of the pass over some frame (the earlier passes having
    returned), the reader's iteration, or [np.array] on the collected
    rows.  Likewise [fraction_contacts_between] raises [e] exactly when
    one of its six calls does, the calls before it having returned. *)
Theorem notebook_errors_are_library_errors
    {exn : Type} (L : Library exn) (R : Reader exn) (e : exn) :
  (forall u group_a group_b radius w,
      fst (contacts_within_cutoff_run u group_a group_b radius w) = Raise e
      <-> run_raises u group_a group_b radius e)
  /\ (forall r r0 radius min_radius,
         fraction_contacts_between r r0 radius min_radius = Raise e
         <-> fraction_raises r radius min_radius e).
Proof.
  split.
  - intros u group_a group_b radius w. apply run_raises_iff.
  - intros r r0 radius min_radius. apply fraction_raises_iff.
Qed.

Lemma notebook_errors_unreadable_trajectory :
  run_raises (L := reference_library euclid) (R := unreadable_reader)
    two_atoms first_atom second_atom 4.5%float IOError
  /\ fraction_raises (L := faulty_library)
       [3%float] 5%float 2.5%float ValueError.
Proof.
  split.
  - apply (proj1 (notebook_errors_are_library_errors
                    (reference_library euclid) unreadable_reader IOError)
             two_atoms first_atom second_atom 4.5%float
             (world_at frame_one)).
    reflexivity.
  - apply (proj2 (notebook_errors_are_library_errors
                    faulty_library unreadable_reader ValueError)
             [3%float] [] 5%float 2.5%float).
    reflexivity.
Defined.



(** X6: whatever the library and the reader do, a run of
    [contacts_within_cutoff] returns an array [arr] exactly when the
    reader's iteration reaches the end without raising, the calls of the
    pass over every frame return a count, and [np.array] returns [arr]
    for the rows [[ts.frame, n_contacts]] made of them. *)
Theorem contacts_within_cutoff_run_returns
    {exn : Type} (L : Library exn) (R : Reader exn)
    (u : Universe) (group_a group_b : AtomGroup) (radius : float)
    (w : world) (arr : ndarray) :
  fst (contacts_within_cutoff_run u group_a group_b radius w) = Ok arr
  <-> read_error (iterate u) = None
      /\ exists counts,
           Forall2 (frame_count_is group_a group_b radius)
             (frames_read (iterate u)) counts
           /\ np_array (table_rows (frames_read (iterate u)) counts)
              = Ok arr.
Proof. apply run_returns_iff. Qed.

(** X12: [fraction_contacts_between] raises no exception, whatever [r]
    is, and the unguarded division shows in exactly one case: the value
    it returns is [nan] if and only if [r] is empty. *)
Theorem fraction_contacts_between_nan_iff_empty
    (calc_distance : coordinate -> coordinate -> float)
    (r r0 : list float) (radius min_radius : float) :
  (exists fraction,
      fraction_contacts_between (L := reference_library calc_distance)
        r r0 radius min_radius = Ok fraction)
  /\ (fraction_contacts_between (L := reference_library calc_distance)
        r r0 radius min_radius = Ok NaN
      <-> r = []).
Proof.
  rewrite reference_fraction. split; [eexists; reflexivity|]. split.
  - intros H. destruct r as [|d r]; [reflexivity|].
    unfold lib_true_divide in H.
    replace (Z.of_nat (length (d :: r)) =? 0)%Z with false in H
      by (symmetry; apply Z.eqb_neq; cbn [length]; lia).
    discriminate.
  - intros ->. reflexivity.
Qed.
